(** * A shallow embedding of [manokit.Email] (src/manokit/__init__.py)

    The mutable [Email] object is modelled as a record; every method is a
    function from the object's state to the method's outcome (a returned
    value or a raised exception) paired with the state afterwards.  Python
    does not roll back mutations when an exception is raised, so the state
    is returned in both cases. *)

From stdpp Require Import base gmap sets list strings.
From Stdlib Require Import ZArith Ascii String.

Open Scope Z_scope.

(* ------------------------------------------------------------------ *)
(** ** Exceptions and return values *)

(** Exceptions raised by the methods (src/manokit/exceptions.py and the
    Python built-in exceptions the code can reach; [OSError] is the one
    [os.stat] and [open] raise for [ENAMETOOLONG]). *)
Inductive exn :=
| NotAValidEmailAddressError
| AttachmentError
| EmailError
| ValueError
| KeyError
| TypeError
| AttributeError
| OSError
| FileNotFoundError
| NotADirectoryError
| IsADirectoryError
| PermissionError.

#[global] Instance exn_eq_dec : EqDecision exn.
Proof. solve_decision. Defined.

(** What a method returns: the instance itself ([return self]) or
    [None] (a bare [return], or falling off the end of the body). *)
Inductive ret := RSelf | RNone.

#[global] Instance ret_eq_dec : EqDecision ret.
Proof. solve_decision. Defined.

Inductive outcome := Ok (r : ret) | Raise (e : exn).

#[global] Instance outcome_eq_dec : EqDecision outcome.
Proof. solve_decision. Defined.

(* ------------------------------------------------------------------ *)
(** ** pathlib.Path *)

(** A [PurePosixPath] is its root ([""], ["/"] or ["//"]) and its parts;
    two paths are equal (and hash alike) when both agree. *)
Record Path := mkPath { root : string; parts : list string }.

#[global] Instance Path_eq_dec : EqDecision Path.
Proof. solve_decision. Defined.

#[global] Program Instance Path_countable : Countable Path :=
  inj_countable' (fun p => (root p, parts p)) (fun '(r, ps) => mkPath r ps) _.
Next Obligation. by intros []. Qed.

(** [str.split(sep)] *)
Fixpoint split_on (sep : ascii) (s : string) : list string :=
  match s with
  | EmptyString => [EmptyString]
  | String c s' =>
      match split_on sep s' with
      | [] => []
      | w :: ws => if Ascii.eqb c sep then EmptyString :: w :: ws
                   else String c w :: ws
      end
  end.

(** pathlib's [_parse_path] on POSIX: a leading ["//"] (but not ["///"]) is
    kept as root, any other run of leading slashes becomes ["/"]; the
    parts are the non-empty components other than ["."]. *)
Definition path_root (s : string) : string :=
  match s with
  | String "/" (String "/" (String "/" _)) => "/"
  | String "/" (String "/" _) => "//"
  | String "/" _ => "/"
  | _ => ""
  end.

Definition Path_of (s : string) : Path :=
  mkPath (path_root s)
    (filter (fun x => x <> "" /\ x <> ".") (split_on "/" s)).

(* ------------------------------------------------------------------ *)
(** ** The file system the code queries through [Path.stat],
    [Path.is_file] and [Path.open]

    A file system of regular files and directories (no symbolic links or
    special files) as a Linux process sees it.  [stat] reports the kind
    and size of an entry; the permission bits matter through the entries
    the process may not read ([no_read]) and the directories it may not
    search ([no_search]). *)

Inductive Entry :=
| RegularFile (size : Z)
| Directory (size : Z).

(** The size an entry reports to [stat]. *)
Definition entry_size (e : Entry) : Z :=
  match e with RegularFile n => n | Directory n => n end.

(** The working directory and the entries, by absolute location (the
    root directory is the location [[]]). *)
Record FS := mkFS {
  cwd : list string;
  entries : list (list string * Entry);
  no_read : list (list string);
  no_search : list (list string)
}.

Definition entry_at (fs : FS) (loc : list string) : option Entry :=
  match list_find (fun e => e.1 = loc) (entries fs) with
  | Some (_, (_, en)) => Some en
  | None => None
  end.

(** Linux's [NAME_MAX] and [PATH_MAX]. *)
Definition NAME_MAX : nat := 255.

Definition PATH_MAX : nat := 4096.

(** The kernel's walk over the components from the directory [cur]: each
    step needs search permission on the current directory ([EACCES]), a
    component of at most [NAME_MAX] bytes ([ENAMETOOLONG]) and an existing
    entry ([ENOENT]); [".."] goes to the parent; an entry followed by
    further components must be a directory ([ENOTDIR]). *)
Fixpoint walk (fs : FS) (cur : list string) (ps : list string)
    : exn + (list string * Entry) :=
  match ps with
  | [] =>
      match entry_at fs cur with
      | Some en => inr (cur, en)
      | None => inl FileNotFoundError
      end
  | c :: ps' =>
      if decide (cur ∈ no_search fs) then inl PermissionError else
      if (NAME_MAX <? String.length c)%nat then inl OSError else
      let next := if decide (c = "..") then removelast cur else cur ++ [c] in
      match entry_at fs next with
      | None => inl FileNotFoundError
      | Some (Directory n) => walk fs next ps'
      | Some (RegularFile n) =>
          match ps' with
          | [] => inr (next, RegularFile n)
          | _ :: _ => inl NotADirectoryError
          end
      end
  end.

(** [str(p)], the string handed to the system calls. *)
Definition path_str (p : Path) : string :=
  if decide (root p = "" /\ parts p = []) then "."
  else (root p ++ String.concat "/" (parts p))%string.

Definition has_nul (s : string) : bool :=
  existsb (fun c => Ascii.eqb c zero) (list_ascii_of_string s).

(** The resolution behind [os.stat] and [open]: Python refuses an
    embedded NUL with [ValueError] before the system call, the kernel a
    string of [PATH_MAX] bytes or more ([ENAMETOOLONG]); a relative path
    starts at the working directory, an absolute one ([/] or [//]) at the
    root.  The result is the location reached and its entry. *)
Definition resolve (fs : FS) (p : Path) : exn + (list string * Entry) :=
  let s := path_str p in
  if has_nul s then inl ValueError else
  if (PATH_MAX <=? String.length s)%nat then inl OSError else
  walk fs (if decide (root p = "") then cwd fs else []) (parts p).

(** [p.stat()]: the entry, or the exception raised. *)
Definition stat (fs : FS) (p : Path) : exn + Entry :=
  match resolve fs p with
  | inl e => inl e
  | inr (_, en) => inr en
  end.

(** [p.stat().st_size] *)
Definition stat_size (fs : FS) (p : Path) : exn + Z :=
  match stat fs p with
  | inl e => inl e
  | inr en => inr (entry_size en)
  end.

(** [p.is_file()].  In [add_attachment] it runs only after [p.stat()]
    succeeded on the same file system, where it tells whether the entry
    is a regular file; what it does when [stat] fails does not matter
    there. *)
Definition is_file (fs : FS) (p : Path) : bool :=
  match stat fs p with
  | inr (RegularFile _) => true
  | _ => false
  end.

(** [file.open("rb")]: the same resolution, then read permission on the
    entry ([EACCES]); a directory is refused by Python with
    [IsADirectoryError]. *)
Definition open_rb (fs : FS) (p : Path) : exn + unit :=
  match resolve fs p with
  | inl e => inl e
  | inr (loc, en) =>
      if decide (loc ∈ no_read fs) then inl PermissionError else
      match en with
      | RegularFile _ => inr tt
      | Directory _ => inl IsADirectoryError
      end
  end.

(** The [for file in self.attachments] loop of [send]: each file is
    opened and read in turn, and the first failure propagates. *)
Fixpoint read_attachments (fs : FS) (ps : list Path) : exn + unit :=
  match ps with
  | [] => inr tt
  | p :: ps' =>
      match open_rb fs p with
      | inl e => inl e
      | inr _ => read_attachments fs ps'
      end
  end.

(* ------------------------------------------------------------------ *)
(** ** The default validator

    [re.fullmatch("^[-_+.\d\w]+@[-_+\d\w]+(?:\.{1}[\w]+)+$", address,
    re.IGNORECASE)], for ASCII addresses ([\w] is then [[A-Za-z0-9_]]).
    No character class admits ['@'], and only the local part admits
    ['.'], so the pattern splits uniquely: exactly one ['@']; the part
    before it is non-empty over [[-_+.\w]]; the part after it, split on
    ['.'], has a non-empty first segment over [[-_+\w]] followed by at
    least one non-empty segment over [[\w]]. *)

Definition is_word_char (c : ascii) : bool :=
  let n := nat_of_ascii c in
  ((48 <=? n)%nat && (n <=? 57)%nat) || ((65 <=? n)%nat && (n <=? 90)%nat)
  || ((97 <=? n)%nat && (n <=? 122)%nat) || Ascii.eqb c "_".

Definition is_local_char (c : ascii) : bool :=
  is_word_char c || Ascii.eqb c "-" || Ascii.eqb c "+" || Ascii.eqb c ".".

Definition is_domain_char (c : ascii) : bool :=
  is_word_char c || Ascii.eqb c "-" || Ascii.eqb c "+".

(** [s] matches [[class]+] *)
Definition plus_of (cls : ascii -> bool) (s : string) : bool :=
  negb (String.eqb s "") && forallb cls (list_ascii_of_string s).

Definition _default_email_validator (address : string) : bool :=
  match split_on "@" address with
  | [local; domain] =>
      plus_of is_local_char local &&
      match split_on "." domain with
      | first :: (_ :: _) as rest =>
          plus_of is_domain_char first && forallb (plus_of is_word_char) rest
      | _ => false
      end
  | _ => false
  end.

(* ------------------------------------------------------------------ *)
(** ** The collaborators of [send] *)

(** The message [send] composes with [MIMEMultipart]: its headers, the
    HTML body part and the attached files. *)
Record Message := mkMessage {
  msg_subject : string;
  msg_from : option string;
  msg_cc : string;
  msg_body : string;
  msg_files : list Path
}.

(** The SMTP handler ([smtplib.SMTP] after [login]): [sendmail] returns
    the dict of refused recipients, address |-> (code, reason), as an
    association list in insertion order. *)
Record SMTP := mkSMTP {
  sendmail : option string -> list string -> Message -> list (string * (Z * string))
}.

(* ------------------------------------------------------------------ *)
(** ** The [Email] object *)

Record Email := mkEmail {
  host : string;
  port : Z;
  email_handler : option SMTP;
  author : option string;
  subject : string;
  body : string;
  attachments : gset Path;
  rec : gset string;
  cc : gset string;
  bcc : gset string;
  FILESIZE_LIMIT : Z;
  available_filesize : Z;
  email_validators : gmap string (string -> bool)
}.

Definition set_rec (st : Email) (r : gset string) : Email :=
  mkEmail (host st) (port st) (email_handler st) (author st) (subject st)
    (body st) (attachments st) r (cc st) (bcc st) (FILESIZE_LIMIT st)
    (available_filesize st) (email_validators st).

Definition set_cc_set (st : Email) (c : gset string) : Email :=
  mkEmail (host st) (port st) (email_handler st) (author st) (subject st)
    (body st) (attachments st) (rec st) c (bcc st) (FILESIZE_LIMIT st)
    (available_filesize st) (email_validators st).

Definition set_bcc_set (st : Email) (b : gset string) : Email :=
  mkEmail (host st) (port st) (email_handler st) (author st) (subject st)
    (body st) (attachments st) (rec st) (cc st) b (FILESIZE_LIMIT st)
    (available_filesize st) (email_validators st).

Definition set_validators (st : Email) (vs : gmap string (string -> bool)) : Email :=
  mkEmail (host st) (port st) (email_handler st) (author st) (subject st)
    (body st) (attachments st) (rec st) (cc st) (bcc st) (FILESIZE_LIMIT st)
    (available_filesize st) vs.

Definition set_attachments (st : Email) (a : gset Path) (avail : Z) : Email :=
  mkEmail (host st) (port st) (email_handler st) (author st) (subject st)
    (body st) a (rec st) (cc st) (bcc st) (FILESIZE_LIMIT st) avail
    (email_validators st).

(** [Email.__init__] *)
Definition Email_init (smtp_host : string) (smtp_port : Z) (filesize_limit : Z) : Email :=
  {| host := smtp_host; port := smtp_port; email_handler := None;
     author := None; subject := "<no subject>"; body := "<no body>";
     attachments := ∅; rec := ∅; cc := ∅; bcc := ∅;
     FILESIZE_LIMIT := filesize_limit; available_filesize := filesize_limit;
     email_validators :=
       <["author" := _default_email_validator]>
       (<["recipients" := _default_email_validator]>
       (<["cc" := _default_email_validator]>
       (<["bcc" := _default_email_validator]> ∅))) |}.

(** [_check_if_valid_email_address]: a missing key raises [KeyError]. *)
Definition _check_if_valid_email_address (st : Email) (address scope : string)
    : option bool :=
  (fun f => f address) <$> email_validators st !! scope.

(** [add_recipient]: validate with the ["recipients"] validator, then add
    to [rec] unless the address is in [cc] or [bcc]. *)
Definition add_recipient (address : string) (st : Email) : outcome * Email :=
  match _check_if_valid_email_address st address "recipients" with
  | None => (Raise KeyError, st)
  | Some false => (Raise NotAValidEmailAddressError, st)
  | Some true =>
      if decide ((address ∉ cc st) /\ (address ∉ bcc st))
      then (Ok RSelf, set_rec st ({[address]} ∪ rec st))
      else (Ok RSelf, st)
  end.

(** [add_cc]: blocked by [rec] and [bcc]. *)
Definition add_cc (address : string) (st : Email) : outcome * Email :=
  match _check_if_valid_email_address st address "cc" with
  | None => (Raise KeyError, st)
  | Some false => (Raise NotAValidEmailAddressError, st)
  | Some true =>
      if decide ((address ∉ rec st) /\ (address ∉ bcc st))
      then (Ok RSelf, set_cc_set st ({[address]} ∪ cc st))
      else (Ok RSelf, st)
  end.

(** [add_bcc]: blocked by [rec] and [cc]. *)
Definition add_bcc (address : string) (st : Email) : outcome * Email :=
  match _check_if_valid_email_address st address "bcc" with
  | None => (Raise KeyError, st)
  | Some false => (Raise NotAValidEmailAddressError, st)
  | Some true =>
      if decide ((address ∉ rec st) /\ (address ∉ cc st))
      then (Ok RSelf, set_bcc_set st ({[address]} ∪ bcc st))
      else (Ok RSelf, st)
  end.

(** [set_body] and [set_subject] *)
Definition set_body (b : string) (st : Email) : outcome * Email :=
  (Ok RSelf, mkEmail (host st) (port st) (email_handler st) (author st)
     (subject st) b (attachments st) (rec st) (cc st) (bcc st)
     (FILESIZE_LIMIT st) (available_filesize st) (email_validators st)).

Definition set_subject (s : string) (st : Email) : outcome * Email :=
  (Ok RSelf, mkEmail (host st) (port st) (email_handler st) (author st)
     s (body st) (attachments st) (rec st) (cc st) (bcc st)
     (FILESIZE_LIMIT st) (available_filesize st) (email_validators st)).

(** The keys of [email_validators]. *)
Definition validator_keys : list string := ["author"; "recipients"; "cc"; "bcc"].

(** The scope names accepted by [set_custom_email_validator]. *)
Definition allowed_scopes : list string := ["all"; "author"; "recipients"; "cc"; "bcc"].

(** The [for s in scopes] loop: each name is checked and then written to
    the dict, so names before an invalid one have already been written
    when [ValueError] is raised. *)
Fixpoint set_scopes (validator : string -> bool) (scopes : list string)
    (vs : gmap string (string -> bool)) : outcome * gmap string (string -> bool) :=
  match scopes with
  | [] => (Ok RNone, vs)
  | s :: ss =>
      if decide (s ∉ allowed_scopes) then (Raise ValueError, vs)
      else set_scopes validator ss (<[s := validator]> vs)
  end.

(** [set_custom_email_validator] (returns [None]). *)
Definition set_custom_email_validator (validator : string -> bool)
    (scopes : list string) (st : Email) : outcome * Email :=
  if decide ("all" ∈ scopes) then
    (Ok RNone,
     set_validators st
       (<["bcc" := validator]> (<["cc" := validator]>
       (<["recipients" := validator]> (<["author" := validator]>
       (email_validators st))))))
  else
    let '(o, vs) := set_scopes validator scopes (email_validators st) in
    (o, set_validators st vs).

(** [add_attachment]: [p = Path(path)] is compared with the stored paths
    as it is, without resolution; [p.stat()] runs before [p.is_file()]
    and is called a second time for the budget check, and an exception it
    raises propagates. *)
Definition add_attachment (fs : FS) (path : string) (st : Email) : outcome * Email :=
  let p := Path_of path in
  if decide (p ∈ attachments st) then (Ok RNone, st) else
  match stat_size fs p with
  | inl e => (Raise e, st)
  | inr sz =>
      if Z.eqb sz 0 then (Ok RNone, st) else
      if negb (is_file fs p) then (Raise AttachmentError, st) else
      match stat_size fs p with
      | inl e => (Raise e, st)
      | inr sz2 =>
          let rem_filesize := available_filesize st - sz2 in
          if Z.ltb rem_filesize 0 then (Raise AttachmentError, st)
          else (Ok RSelf, set_attachments st ({[p]} ∪ attachments st) rem_filesize)
      end
  end.

(** A call of the handler's [sendmail]: sender, envelope recipients,
    message. *)
Definition Sent : Type := option string * list string * Message.

(** The message composed in [send]: subject, From, the Cc header
    [",".join(self.cc)] (a set is iterated in an order of its own, here
    that of [elements]), the body as HTML and one part per attachment. *)
Definition compose (st : Email) : Message :=
  mkMessage (subject st) (author st) (String.concat "," (elements (cc st))) (body st)
    (elements (attachments st)).

(** [send] on the file system [fs]: the outcome, the state afterwards and
    the [sendmail] calls made.  The attachments are opened and read before
    the handler is looked up; [errs.keys()[0]] subscripts a [dict_keys]
    view, which raises [TypeError] in Python 3 before the f-string is
    built. *)
Definition send (fs : FS) (st : Email) : outcome * Email * list Sent :=
  if (size (rec st) <? 1)%nat then (Raise EmailError, st, []) else
  let message := compose st in
  match read_attachments fs (elements (attachments st)) with
  | inl e => (Raise e, st, [])
  | inr _ =>
      match email_handler st with
      | None => (Raise AttributeError, st, [])
      | Some h =>
          let rcpts := elements (rec st ∪ cc st ∪ bcc st) in
          let errs := sendmail h (author st) rcpts message in
          let calls := [(author st, rcpts, message)] in
          match errs with
          | [] => (Ok RSelf, st, calls)
          | _ :: _ => (Raise TypeError, st, calls)
          end
      end
  end.

Example default_validator_accepts : _default_email_validator "test@example.edu.ua" = true.
Proof. reflexivity. Qed.

Example default_validator_rejects : _default_email_validator "test@ohmygod......what" = false.
Proof. reflexivity. Qed.

Example path_dot_slash : Path_of "./a//b/" = Path_of "a/b".
Proof. reflexivity. Qed.

Example path_rel_abs : Path_of "a.txt" <> Path_of "/home/u/a.txt".
Proof. discriminate. Qed.

(** [login]: the validator of the ["author"] scope, then the handler [h]
    (the [smtplib] connection after [starttls] and [serv.login], which
    is the transport's business) is stored with the author. *)
Definition login (h : SMTP) (username : string) (st : Email) : outcome * Email :=
  match _check_if_valid_email_address st username "author" with
  | None => (Raise KeyError, st)
  | Some false => (Raise NotAValidEmailAddressError, st)
  | Some true =>
      (Ok RSelf, mkEmail (host st) (port st) (Some h) (Some username)
         (subject st) (body st) (attachments st) (rec st) (cc st) (bcc st)
         (FILESIZE_LIMIT st) (available_filesize st) (email_validators st))
  end.

(** A sequence of address calls; a raised exception is caught by the
    caller, who goes on with the object as the call left it. *)
Inductive addr_call :=
| CallRecipient (a : string)
| CallCc (a : string)
| CallBcc (a : string).

Definition run_addr_call (c : addr_call) (st : Email) : Email :=
  match c with
  | CallRecipient a => snd (add_recipient a st)
  | CallCc a => snd (add_cc a st)
  | CallBcc a => snd (add_bcc a st)
  end.

Fixpoint run_addr_calls (cs : list addr_call) (st : Email) : Email :=
  match cs with
  | [] => st
  | c :: cs' => run_addr_calls cs' (run_addr_call c st)
  end.

(** The three address sets are pairwise disjoint. *)
Definition disjoint_scopes (st : Email) : Prop :=
  rec st ## cc st /\ rec st ## bcc st /\ cc st ## bcc st.

(** The outcome of a call whose insertion is blocked: that of validation. *)
Definition validation_outcome (v : option bool) : outcome :=
  match v with
  | None => Raise KeyError
  | Some false => Raise NotAValidEmailAddressError
  | Some true => Ok RSelf
  end.

(** Files used by the scenarios below: [/tmp/secret.txt] may not be
    read and [/tmp/locked] may not be searched. *)
Definition fs_tmp : FS :=
  mkFS ["home"; "u"]
    [([], Directory 4096);
     (["tmp"], Directory 4096);
     (["tmp"; "30kb.txt"], RegularFile 30);
     (["tmp"; "70kb.txt"], RegularFile 70);
     (["tmp"; "40.txt"], RegularFile 40);
     (["tmp"; "empty.txt"], RegularFile 0);
     (["tmp"; "secret.txt"], RegularFile 10);
     (["tmp"; "d"], Directory 4096);
     (["tmp"; "e"], Directory 0);
     (["tmp"; "locked"], Directory 4096);
     (["tmp"; "locked"; "f.txt"], RegularFile 10);
     (["home"], Directory 4096);
     (["home"; "u"], Directory 4096);
     (["home"; "u"; "a.txt"], RegularFile 30)]
    [["tmp"; "secret.txt"]]
    [["tmp"; "locked"]].

Definition email0 : Email := Email_init "smtp.google.com" 587 60.

Example scenario_budget :
  let '(o1, st1) := add_attachment fs_tmp "/tmp/30kb.txt" email0 in
  let '(o2, st2) := add_attachment fs_tmp "/tmp/70kb.txt" st1 in
  let '(o3, st3) := add_attachment fs_tmp "/tmp/30kb.txt" st2 in
  o1 = Ok RSelf /\ available_filesize st1 = 30 /\
  o2 = Raise AttachmentError /\ available_filesize st2 = 30 /\
  o3 = Ok RNone /\ available_filesize st3 = 30.
Proof. vm_compute. repeat split. Qed.

Example scenario_bcc_then_rec :
  let st1 := snd (add_bcc "alreadybcc@examplecorp.com" email0) in
  let st2 := snd (add_recipient "alreadybcc@examplecorp.com" st1) in
  size (bcc st1) = 1%nat /\ size (rec st2) = 0%nat.
Proof. vm_compute. split; reflexivity. Qed.

(** Handlers for the send scenarios: one that delivers to everyone and
    one that refuses every recipient with code 550. *)
Definition smtp_accept_all : SMTP := mkSMTP (fun _ _ _ => []).

Definition smtp_refuse_all : SMTP :=
  mkSMTP (fun _ rcpts _ => map (fun a => (a, (550, "User unknown"))) rcpts).

(** A logged-in draft with one direct recipient. *)
Definition draft_one_rec (h : SMTP) : Email :=
  snd (login h "me@example.com" (snd (add_recipient "you@example.com" email0))).

(** Any call of the public methods of [Email]; a raised exception is
    caught by the caller, who goes on with the object as the call left
    it.  [add_attachment] and [send] query the file system [fs]. *)
Inductive call :=
| CRecipient (a : string)
| CCc (a : string)
| CBcc (a : string)
| CBody (b : string)
| CSubject (s : string)
| CValidator (v : string -> bool) (scopes : list string)
| CAttach (path : string)
| CLogin (h : SMTP) (username : string)
| CSend.

Definition run_call (fs : FS) (c : call) (st : Email) : Email :=
  match c with
  | CRecipient a => snd (add_recipient a st)
  | CCc a => snd (add_cc a st)
  | CBcc a => snd (add_bcc a st)
  | CBody b => snd (set_body b st)
  | CSubject s => snd (set_subject s st)
  | CValidator v scopes => snd (set_custom_email_validator v scopes st)
  | CAttach path => snd (add_attachment fs path st)
  | CLogin h u => snd (login h u st)
  | CSend => (send fs st).1.2
  end.

Fixpoint run_calls (fs : FS) (cs : list call) (st : Email) : Email :=
  match cs with
  | [] => st
  | c :: cs' => run_calls fs cs' (run_call fs c st)
  end.

(** The size [stat] reports for an attached path (0 if it is gone). *)
Definition attached_size (fs : FS) (p : Path) : Z :=
  match stat_size fs p with inr n => n | inl _ => 0 end.

Fixpoint sum_sizes (fs : FS) (ps : list Path) : Z :=
  match ps with
  | [] => 0
  | p :: ps' => attached_size fs p + sum_sizes fs ps'
  end.

(** The bytes charged for the attachments held. *)
Definition total_attached (fs : FS) (st : Email) : Z :=
  sum_sizes fs (elements (attachments st)).

(** Number of occurrences of a character. *)
Fixpoint count_char (c : ascii) (s : string) : nat :=
  match s with
  | EmptyString => 0
  | String c' s' => (if Ascii.eqb c' c then 1 else 0) + count_char c s'
  end.

(* ------------------------------------------------------------------ *)
(** ** Lemmas *)

Lemma add_recipient_disjoint a st :
  disjoint_scopes st -> disjoint_scopes (snd (add_recipient a st)).
Proof.
  unfold add_recipient, disjoint_scopes.
  destruct (_check_if_valid_email_address st a "recipients") as [[]|];
    simpl; [case_decide|..]; simpl; set_solver.
Qed.

Lemma add_cc_disjoint a st :
  disjoint_scopes st -> disjoint_scopes (snd (add_cc a st)).
Proof.
  unfold add_cc, disjoint_scopes.
  destruct (_check_if_valid_email_address st a "cc") as [[]|];
    simpl; [case_decide|..]; simpl; set_solver.
Qed.

Lemma add_bcc_disjoint a st :
  disjoint_scopes st -> disjoint_scopes (snd (add_bcc a st)).
Proof.
  unfold add_bcc, disjoint_scopes.
  destruct (_check_if_valid_email_address st a "bcc") as [[]|];
    simpl; [case_decide|..]; simpl; set_solver.
Qed.

Lemma run_addr_calls_disjoint cs st :
  disjoint_scopes st -> disjoint_scopes (run_addr_calls cs st).
Proof.
  revert st; induction cs as [|c cs IH]; intros st H; simpl; [done|].
  apply IH. destruct c; simpl;
    [apply add_recipient_disjoint | apply add_cc_disjoint | apply add_bcc_disjoint];
    done.
Qed.

Lemma Email_init_disjoint h p l : disjoint_scopes (Email_init h p l).
Proof. unfold disjoint_scopes; simpl; set_solver. Qed.

(* ------------------------------------------------------------------ *)
(** ** C1: the three address sets *)

(** C1 (amended): after any sequence of [add_recipient], [add_cc] and
    [add_bcc] calls from a state whose three sets are pairwise disjoint
    (such as a fresh [Email]), the sets stay pairwise disjoint; and a call
    for an address already held by one of the other two sets never
    changes the object: it raises exactly when the target scope's
    validator rejects the address, and is otherwise a silent no-op
    returning the instance. *)
Theorem address_sets_partition :
  (forall cs st, disjoint_scopes st -> disjoint_scopes (run_addr_calls cs st)) /\
  (forall a st, a ∈ cc st \/ a ∈ bcc st ->
     add_recipient a st =
       (validation_outcome (_check_if_valid_email_address st a "recipients"), st)) /\
  (forall a st, a ∈ rec st \/ a ∈ bcc st ->
     add_cc a st = (validation_outcome (_check_if_valid_email_address st a "cc"), st)) /\
  (forall a st, a ∈ rec st \/ a ∈ cc st ->
     add_bcc a st = (validation_outcome (_check_if_valid_email_address st a "bcc"), st)).
Proof.
  split; [exact run_addr_calls_disjoint|].
  refine (conj _ (conj _ _)); intros a st Hin;
    unfold add_recipient, add_cc, add_bcc;
    match goal with |- context [_check_if_valid_email_address st a ?s] =>
      destruct (_check_if_valid_email_address st a s) as [[]|] end;
    simpl; try reflexivity; case_decide; (reflexivity || set_solver).
Qed.

Lemma address_sets_partition_witness :
  disjoint_scopes
    (run_addr_calls [CallBcc "x@y.zz"; CallRecipient "x@y.zz"; CallCc "w@y.zz"] email0) /\
  add_recipient "x@y.zz" (snd (add_bcc "x@y.zz" email0)) =
    (Ok RSelf, snd (add_bcc "x@y.zz" email0)).
Proof.
  split.
  - apply (proj1 address_sets_partition). apply Email_init_disjoint.
  - rewrite (proj1 (proj2 address_sets_partition)); [reflexivity|].
    right. apply (bool_decide_eq_true_1 (_ ∈ _)). vm_compute. reflexivity.
Defined.

(** C1 (as stated, refuted): with the ["recipients"] validator replaced
    by one rejecting everything, an address already in [bcc] makes
    [add_recipient] raise [NotAValidEmailAddressError]: the blocked call
    is not a silent no-op. *)
Lemma address_sets_blocked_call_raises :
  let st0 := snd (set_custom_email_validator (fun _ => false) ["recipients"] email0) in
  let st1 := snd (add_bcc "alreadybcc@examplecorp.com" st0) in
  "alreadybcc@examplecorp.com" ∈ bcc st1 /\
  add_recipient "alreadybcc@examplecorp.com" st1 = (Raise NotAValidEmailAddressError, st1).
Proof.
  simpl. split.
  - apply (bool_decide_eq_true_1 (_ ∈ _)). vm_compute. reflexivity.
  - reflexivity.
Qed.

(* ------------------------------------------------------------------ *)
(** ** C2-C6: attachments *)

Lemma stat_regular fs p n :
  stat fs p = inr (RegularFile n) -> stat_size fs p = inr n /\ is_file fs p = true.
Proof. unfold stat_size, is_file. intros ->. done. Qed.

Lemma stat_directory fs p n :
  stat fs p = inr (Directory n) -> stat_size fs p = inr n /\ is_file fs p = false.
Proof. unfold stat_size, is_file. intros ->. done. Qed.

Lemma add_attachment_present fs path st :
  Path_of path ∈ attachments st -> add_attachment fs path st = (Ok RNone, st).
Proof. intros H. unfold add_attachment. by rewrite decide_True. Qed.

(** C2: a regular file of size [n], [0 < n <= available_filesize], not yet
    attached, is admitted: the budget drops by exactly [n] and its path
    joins the set; the same call again changes nothing. *)
Theorem add_attachment_admits fs path st n :
  Path_of path ∉ attachments st ->
  stat fs (Path_of path) = inr (RegularFile n) ->
  0 < n <= available_filesize st ->
  let st' := set_attachments st ({[Path_of path]} ∪ attachments st)
               (available_filesize st - n) in
  add_attachment fs path st = (Ok RSelf, st') /\
  available_filesize st' = available_filesize st - n /\
  attachments st' = {[Path_of path]} ∪ attachments st /\
  add_attachment fs path st' = (Ok RNone, st').
Proof.
  intros Hnot Hreg Hn st'.
  destruct (stat_regular _ _ _ Hreg) as [Hs Hf].
  split; [|split; [reflexivity | split; [reflexivity|]]].
  - unfold add_attachment. rewrite decide_False by done. rewrite Hs, Hf.
    rewrite (proj2 (Z.eqb_neq n 0)) by lia.
    rewrite (proj2 (Z.ltb_ge _ 0)) by lia. reflexivity.
  - apply add_attachment_present. simpl. set_solver.
Qed.

Lemma add_attachment_admits_witness :
  (Path_of "/tmp/30kb.txt" ∉ attachments email0) /\
  add_attachment fs_tmp "/tmp/30kb.txt" email0 =
    (Ok RSelf, set_attachments email0 ({[Path_of "/tmp/30kb.txt"]} ∪ attachments email0) 30).
Proof.
  split; [apply not_elem_of_empty|].
  refine (proj1 (add_attachment_admits fs_tmp "/tmp/30kb.txt" email0 30 _ _ _));
    [apply not_elem_of_empty | reflexivity | cbn [available_filesize email0 Email_init]; lia].
Defined.

(** C3 (amended): a regular file of size [n > available_filesize] that is
    not yet attached and is not empty makes [add_attachment] raise
    [AttachmentError], and the object is left as it was.  A path already
    attached is a no-op whatever its size and the budget, and so is a
    path whose [stat] reports 0 bytes. *)
Theorem add_attachment_over_budget fs path st :
  (forall n, Path_of path ∉ attachments st ->
     stat fs (Path_of path) = inr (RegularFile n) ->
     n <> 0 ->
     available_filesize st < n ->
     add_attachment fs path st = (Raise AttachmentError, st)) /\
  (Path_of path ∈ attachments st -> add_attachment fs path st = (Ok RNone, st)) /\
  (stat_size fs (Path_of path) = inr 0 -> add_attachment fs path st = (Ok RNone, st)).
Proof.
  split; [|split; [apply add_attachment_present|]].
  - intros n Hnot Hreg Hn Hgt.
    destruct (stat_regular _ _ _ Hreg) as [Hs Hf].
    unfold add_attachment. rewrite decide_False by done. rewrite Hs, Hf.
    rewrite (proj2 (Z.eqb_neq n 0)) by lia.
    rewrite (proj2 (Z.ltb_lt _ 0)) by lia. reflexivity.
  - intros Hs. unfold add_attachment.
    case_decide; [reflexivity|]. rewrite Hs. reflexivity.
Qed.

Lemma add_attachment_over_budget_witness :
  add_attachment fs_tmp "/tmp/70kb.txt" email0 = (Raise AttachmentError, email0) /\
  (let st1 := snd (add_attachment fs_tmp "/tmp/40.txt" email0) in
   available_filesize st1 = 20 /\ add_attachment fs_tmp "/tmp/40.txt" st1 = (Ok RNone, st1)) /\
  add_attachment fs_tmp "/tmp/empty.txt" (Email_init "smtp.google.com" 587 (-1)) =
    (Ok RNone, Email_init "smtp.google.com" 587 (-1)).
Proof.
  split; [|split].
  - apply (proj1 (add_attachment_over_budget fs_tmp "/tmp/70kb.txt" email0) 70);
      [apply not_elem_of_empty | reflexivity | discriminate | reflexivity].
  - intros st1. split; [reflexivity|].
    apply (proj1 (proj2 (add_attachment_over_budget fs_tmp "/tmp/40.txt" st1))).
    apply (bool_decide_eq_true_1 (_ ∈ _)). vm_compute. reflexivity.
  - apply (proj2 (proj2 (add_attachment_over_budget fs_tmp "/tmp/empty.txt" _))).
    reflexivity.
Defined.

(** C3 (as stated, refuted): a file already attached is not re-charged,
    so a 40-byte file attached under a 60-byte budget exceeds the 20
    bytes left and yet adding it again raises nothing; and with a
    negative limit an empty file exceeds the budget and raises nothing. *)
Lemma add_attachment_over_budget_no_error :
  let st1 := snd (add_attachment fs_tmp "/tmp/40.txt" email0) in
  stat_size fs_tmp (Path_of "/tmp/40.txt") = inr 40 /\
  is_file fs_tmp (Path_of "/tmp/40.txt") = true /\
  available_filesize st1 = 20 /\
  add_attachment fs_tmp "/tmp/40.txt" st1 = (Ok RNone, st1) /\
  let st2 := Email_init "smtp.google.com" 587 (-1) in
  is_file fs_tmp (Path_of "/tmp/empty.txt") = true /\
  add_attachment fs_tmp "/tmp/empty.txt" st2 = (Ok RNone, st2).
Proof.
  intros st1.
  repeat (match goal with
          | |- _ /\ _ => split
          | |- let _ := _ in _ => intros ?
          end); reflexivity.
Qed.

(** C4: a path whose [stat] reports 0 bytes is never added and never
    raises, whatever the budget and whether or not it is a regular
    file. *)
Theorem add_attachment_zero_size fs path st :
  stat_size fs (Path_of path) = inr 0 ->
  add_attachment fs path st = (Ok RNone, st).
Proof.
  intros Hs. unfold add_attachment.
  case_decide; [reflexivity|]. rewrite Hs. reflexivity.
Qed.

Lemma add_attachment_zero_size_witness :
  is_file fs_tmp (Path_of "/tmp/e") = false /\
  add_attachment fs_tmp "/tmp/e" (Email_init "smtp.google.com" 587 (-5)) =
    (Ok RNone, Email_init "smtp.google.com" 587 (-5)).
Proof.
  split; [reflexivity|].
  apply (add_attachment_zero_size fs_tmp "/tmp/e"). reflexivity.
Defined.

Lemma walk_error fs cur ps e :
  walk fs cur ps = inl e ->
  e ∈ [OSError; FileNotFoundError; NotADirectoryError; PermissionError].
Proof.
  revert cur; induction ps as [|c ps IH]; intros cur; cbn [walk].
  - destruct (entry_at fs cur); intros [=]; subst; set_solver.
  - case_decide; [intros [= <-]; set_solver|].
    destruct (NAME_MAX <? String.length c)%nat; [intros [= <-]; set_solver|].
    destruct (entry_at fs _) as [[n|n]|]; [destruct ps|apply IH|];
      intros [=]; subst; set_solver.
Qed.

(** The exceptions [p.stat()] can raise. *)
Lemma stat_error fs p e :
  stat fs p = inl e ->
  e ∈ [ValueError; OSError; FileNotFoundError; NotADirectoryError; PermissionError].
Proof.
  unfold stat, resolve. cbv zeta.
  destruct (has_nul (path_str p)); [intros [= <-]; set_solver|].
  destruct (PATH_MAX <=? String.length (path_str p))%nat; [intros [= <-]; set_solver|].
  destruct (walk fs _ (parts p)) as [e'|[l en]] eqn:Hw; [|discriminate].
  intros [= <-]. apply walk_error in Hw. set_solver.
Qed.

(** C5 (amended): a path not yet attached that exists, is not a regular
    file and reports a non-zero size makes [add_attachment] raise
    [AttachmentError].  For a path not yet attached on which [p.stat()]
    fails, [add_attachment] raises the exception of [p.stat()], which is
    not [AttachmentError]: [FileNotFoundError] for a missing entry,
    [NotADirectoryError] for a path through a regular file,
    [PermissionError] under a directory that may not be searched (or
    [ValueError], [OSError] for a NUL byte or an overlong name).  None of
    these calls changes the object. *)
Theorem add_attachment_not_a_file fs path st :
  Path_of path ∉ attachments st ->
  (forall n, stat fs (Path_of path) = inr (Directory n) -> n <> 0 ->
     add_attachment fs path st = (Raise AttachmentError, st)) /\
  (forall e, stat fs (Path_of path) = inl e ->
     add_attachment fs path st = (Raise e, st) /\
     e ∈ [ValueError; OSError; FileNotFoundError; NotADirectoryError; PermissionError]).
Proof.
  intros Hnot. unfold add_attachment. rewrite decide_False by done. split.
  - intros n Hd Hn. destruct (stat_directory _ _ _ Hd) as [Hs Hf].
    rewrite Hs, Hf, (proj2 (Z.eqb_neq n 0)) by done. reflexivity.
  - intros e He. split; [|exact (stat_error _ _ _ He)].
    unfold stat_size. rewrite He. reflexivity.
Qed.

Lemma add_attachment_not_a_file_witness :
  add_attachment fs_tmp "/tmp/d" email0 = (Raise AttachmentError, email0) /\
  add_attachment fs_tmp "/tmp/missing.txt" email0 = (Raise FileNotFoundError, email0) /\
  add_attachment fs_tmp "/tmp/30kb.txt/x" email0 = (Raise NotADirectoryError, email0) /\
  add_attachment fs_tmp "/tmp/30kb.txt/../40.txt" email0 = (Raise NotADirectoryError, email0) /\
  add_attachment fs_tmp "/tmp/locked/f.txt" email0 = (Raise PermissionError, email0).
Proof.
  pose proof (add_attachment_not_a_file fs_tmp "/tmp/d" email0 (not_elem_of_empty _))
    as [Hd _].
  split; [apply (Hd 4096); [reflexivity | discriminate]|].
  split; [apply (proj2 (add_attachment_not_a_file fs_tmp _ email0 (not_elem_of_empty _)));
          reflexivity|].
  split; [apply (proj2 (add_attachment_not_a_file fs_tmp _ email0 (not_elem_of_empty _)));
          reflexivity|].
  split; [apply (proj2 (add_attachment_not_a_file fs_tmp _ email0 (not_elem_of_empty _)));
          reflexivity|].
  apply (proj2 (add_attachment_not_a_file fs_tmp _ email0 (not_elem_of_empty _))).
  reflexivity.
Defined.

(** C5 (as stated, refuted): a path that does not exist raises
    [FileNotFoundError] from [p.stat()], not [AttachmentError]. *)
Lemma add_attachment_missing_path :
  add_attachment fs_tmp "/tmp/missing.txt" email0 = (Raise FileNotFoundError, email0) /\
  FileNotFoundError <> AttachmentError.
Proof. split; [reflexivity | discriminate]. Qed.

(** C6 (amended): the identity of an attachment is the [Path] built from
    the argument, compared without resolution.  After any call that
    returned normally, a second call whose argument builds an equal
    [Path] (e.g. ["./a.txt"] after ["a.txt"]) changes nothing.  Two
    arguments building different [Path] values are handled independently
    even when they resolve to the same file: once the first has admitted
    the file, the second admits it again and charges its size a second
    time if the remaining budget covers it, and raises [AttachmentError]
    otherwise. *)
Theorem add_attachment_same_path_noop fs s1 s2 st n :
  (forall r st1, add_attachment fs s1 st = (Ok r, st1) ->
     Path_of s2 = Path_of s1 ->
     add_attachment fs s2 st1 = (Ok RNone, st1)) /\
  (Path_of s1 <> Path_of s2 ->
   Path_of s1 ∉ attachments st -> Path_of s2 ∉ attachments st ->
   resolve fs (Path_of s1) = resolve fs (Path_of s2) ->
   stat fs (Path_of s1) = inr (RegularFile n) ->
   0 < n <= available_filesize st ->
   let st1 := (add_attachment fs s1 st).2 in
   attachments st1 = {[Path_of s1]} ∪ attachments st /\
   available_filesize st1 = available_filesize st - n /\
   (n <= available_filesize st1 ->
      add_attachment fs s2 st1 =
        (Ok RSelf, set_attachments st1 ({[Path_of s2]} ∪ attachments st1)
                     (available_filesize st1 - n))) /\
   (available_filesize st1 < n ->
      add_attachment fs s2 st1 = (Raise AttachmentError, st1))).
Proof.
  split.
  - intros r st1 Hadd Heq. unfold add_attachment in *. cbv zeta in Hadd |- *. rewrite Heq.
    destruct (decide (Path_of s1 ∈ attachments st)) as [Hin|Hnot].
    { injection Hadd as _ <-. by rewrite decide_True. }
    destruct (stat_size fs (Path_of s1)) as [e|sz] eqn:Hs; [discriminate|].
    destruct (Z.eqb sz 0) eqn:Hz.
    { injection Hadd as _ <-. rewrite decide_False by done. reflexivity. }
    destruct (negb (is_file fs (Path_of s1))); [discriminate|].
    destruct (Z.ltb (available_filesize st - sz) 0); [discriminate|].
    injection Hadd as _ <-. rewrite decide_True; [reflexivity|].
    simpl. set_solver.
  - intros Hne Hn1 Hn2 Hres Hreg Hn st1.
    assert (Hreg2 : stat fs (Path_of s2) = inr (RegularFile n)).
    { unfold stat in *. rewrite <- Hres. exact Hreg. }
    destruct (add_attachment_admits fs s1 st n Hn1 Hreg Hn) as (Hadd & Hav & Hat & _).
    unfold st1. rewrite Hadd. cbn [snd].
    split; [exact Hat|]. split; [exact Hav|].
    assert (Hn2' : Path_of s2 ∉ {[Path_of s1]} ∪ attachments st) by set_solver.
    split.
    + intros Hle. apply (add_attachment_admits fs s2 _ n); [simpl; exact Hn2'|exact Hreg2|].
      split; [lia|exact Hle].
    + intros Hlt. apply (proj1 (add_attachment_over_budget fs s2 _) n);
        [simpl; exact Hn2' | exact Hreg2 | lia | exact Hlt].
Qed.

Lemma add_attachment_same_path_noop_witness :
  (let st1 := snd (add_attachment fs_tmp "a.txt" email0) in
   add_attachment fs_tmp "./a.txt" st1 = (Ok RNone, st1)) /\
  (let st1 := snd (add_attachment fs_tmp "a.txt" email0) in
   add_attachment fs_tmp "/home/u/a.txt" st1 =
     (Ok RSelf, set_attachments st1 ({[Path_of "/home/u/a.txt"]} ∪ attachments st1) 0)) /\
  (let st0 := Email_init "smtp.google.com" 587 40 in
   let st1 := snd (add_attachment fs_tmp "a.txt" st0) in
   add_attachment fs_tmp "/home/u/a.txt" st1 = (Raise AttachmentError, st1)).
Proof.
  split; [|split].
  - intros st1.
    apply (proj1 (add_attachment_same_path_noop fs_tmp "a.txt" "./a.txt" email0 30) RSelf st1);
      reflexivity.
  - intros st1.
    refine (proj1 (proj2 (proj2 (proj2 (add_attachment_same_path_noop fs_tmp "a.txt"
              "/home/u/a.txt" email0 30) _ _ _ _ _ _))) _);
      [discriminate | apply not_elem_of_empty | apply not_elem_of_empty
      | reflexivity | reflexivity | cbn [available_filesize email0 Email_init]; lia
      | reflexivity].
  - intros st0 st1.
    refine (proj2 (proj2 (proj2 (proj2 (add_attachment_same_path_noop fs_tmp "a.txt"
              "/home/u/a.txt" st0 30) _ _ _ _ _ _))) _);
      [discriminate | apply not_elem_of_empty | apply not_elem_of_empty
      | reflexivity | reflexivity | cbn [available_filesize st0 Email_init]; lia
      | reflexivity].
Defined.

(** C6 (as stated, refuted): ["a.txt"] in the working directory
    [/home/u] and ["/home/u/a.txt"] are the same 30-byte file, yet both
    calls admit it: the budget is charged twice and the set holds two
    entries. *)
Lemma add_attachment_two_spellings :
  let st1 := snd (add_attachment fs_tmp "a.txt" email0) in
  let st2 := snd (add_attachment fs_tmp "/home/u/a.txt" st1) in
  resolve fs_tmp (Path_of "a.txt") = resolve fs_tmp (Path_of "/home/u/a.txt") /\
  available_filesize st2 = 0 /\ size (attachments st2) = 2%nat.
Proof. split; [reflexivity | split; vm_compute; reflexivity]. Qed.

(* ------------------------------------------------------------------ *)
(** ** C7, C8: send *)

(** C7: with no direct recipient, [send] raises [EmailError] before
    composing or calling the handler, whatever [cc] and [bcc] hold. *)
Theorem send_empty_rec fs st :
  rec st = ∅ -> send fs st = (Raise EmailError, st, []).
Proof. intros H. unfold send. rewrite H. reflexivity. Qed.

Lemma send_empty_rec_witness :
  let st := snd (add_bcc "b@example.com" (snd (add_cc "c@example.com" email0))) in
  size (cc st) = 1%nat /\ size (bcc st) = 1%nat /\ send fs_tmp st = (Raise EmailError, st, []).
Proof.
  intros st. split; [vm_compute; reflexivity|]. split; [vm_compute; reflexivity|].
  apply send_empty_rec. vm_compute. reflexivity.
Defined.

(** C8 (at a failing input): the handler refuses ["you@example.com"] with
    (550, "User unknown"); [send] then raises [TypeError] from
    [errs.keys()[0]], not an [EmailError] naming the address. *)
Theorem send_refused_raises_type_error :
  let st := draft_one_rec smtp_refuse_all in
  sendmail smtp_refuse_all (author st) (elements (rec st ∪ cc st ∪ bcc st)) (compose st)
    = [("you@example.com", (550, "User unknown"))] /\
  (send fs_tmp st).1.1 = Raise TypeError /\
  (send fs_tmp st).1.1 <> Raise EmailError.
Proof.
  intros st. split; [vm_compute; reflexivity|].
  split; [vm_compute; reflexivity | vm_compute; discriminate].
Qed.

(** With an empty refusal dict the same draft is sent and [send] returns
    the instance. *)
Lemma send_accepted_returns_self :
  (send fs_tmp (draft_one_rec smtp_accept_all)).1.1 = Ok RSelf.
Proof. vm_compute. reflexivity. Qed.

(* ------------------------------------------------------------------ *)
(** ** C9: set_custom_email_validator *)

Lemma set_scopes_valid v scopes vs :
  Forall (fun s => s ∈ allowed_scopes) scopes ->
  (set_scopes v scopes vs).1 = Ok RNone /\
  forall k, (set_scopes v scopes vs).2 !! k =
            if decide (k ∈ scopes) then Some v else vs !! k.
Proof.
  revert vs; induction scopes as [|s ss IH]; intros vs Hall; cbn [set_scopes app].
  - split; [done|]. intros k. rewrite decide_False; [done|]. apply not_elem_of_nil.
  - apply Forall_cons in Hall as [Hs Hss].
    rewrite decide_False by tauto.
    destruct (IH (<[s := v]> vs) Hss) as [Ho Hk]. split; [done|].
    intros k. rewrite Hk, lookup_insert.
    destruct (decide (k ∈ ss)); destruct (decide (s = k)); subst;
      repeat case_decide; set_solver.
Qed.

Lemma set_scopes_invalid v pre s post vs :
  Forall (fun x => x ∈ allowed_scopes) pre ->
  s ∉ allowed_scopes ->
  (set_scopes v (pre ++ s :: post) vs).1 = Raise ValueError /\
  forall k, (set_scopes v (pre ++ s :: post) vs).2 !! k =
            if decide (k ∈ pre) then Some v else vs !! k.
Proof.
  revert vs; induction pre as [|x xs IH]; intros vs Hall Hs; cbn [set_scopes app].
  - rewrite decide_True by done. split; [done|]. intros k.
    rewrite decide_False; [done|]. apply not_elem_of_nil.
  - apply Forall_cons in Hall as [Hx Hxs].
    rewrite decide_False by tauto.
    destruct (IH (<[x := v]> vs) Hxs Hs) as [Ho Hk]. split; [done|].
    intros k. rewrite Hk, lookup_insert.
    destruct (decide (k ∈ xs)); destruct (decide (x = k)); subst;
      repeat case_decide; set_solver.
Qed.

(** C9 (amended): with ["all"] in the list, the four scopes get the new
    validator and nothing is raised (other names in the list are not
    looked at).  Without ["all"], the names are handled in list order:
    if all are allowed, exactly the listed scopes are replaced and
    [None] is returned; at the first name outside
    {all, author, recipients, cc, bcc} [ValueError] is raised, the names
    before it having been replaced and those after it not. *)
Theorem set_custom_email_validator_scopes :
  (forall v scopes st, "all" ∈ scopes ->
     (set_custom_email_validator v scopes st).1 = Ok RNone /\
     forall k, email_validators (set_custom_email_validator v scopes st).2 !! k =
       if decide (k ∈ validator_keys) then Some v else email_validators st !! k) /\
  (forall v scopes st, "all" ∉ scopes ->
     Forall (fun s => s ∈ allowed_scopes) scopes ->
     (set_custom_email_validator v scopes st).1 = Ok RNone /\
     forall k, email_validators (set_custom_email_validator v scopes st).2 !! k =
       if decide (k ∈ scopes) then Some v else email_validators st !! k) /\
  (forall v pre s post st, "all" ∉ pre ++ s :: post ->
     Forall (fun x => x ∈ allowed_scopes) pre -> s ∉ allowed_scopes ->
     (set_custom_email_validator v (pre ++ s :: post) st).1 = Raise ValueError /\
     forall k, email_validators (set_custom_email_validator v (pre ++ s :: post) st).2 !! k =
       if decide (k ∈ pre) then Some v else email_validators st !! k).
Proof.
  split; [|split].
  - intros v scopes st Hall. unfold set_custom_email_validator.
    rewrite decide_True by done. split; [done|]. intros k. simpl.
    rewrite !lookup_insert. unfold validator_keys.
    repeat case_decide; subst; set_solver.
  - intros v scopes st Hall Hok. unfold set_custom_email_validator.
    rewrite decide_False by done.
    destruct (set_scopes_valid v scopes (email_validators st) Hok) as [Ho Hk].
    destruct (set_scopes v scopes (email_validators st)) as [o vs]. simpl in *.
    split; [done|]. exact Hk.
  - intros v pre s post st Hall Hok Hs. unfold set_custom_email_validator.
    rewrite decide_False by done.
    destruct (set_scopes_invalid v pre s post (email_validators st) Hok Hs) as [Ho Hk].
    destruct (set_scopes v (pre ++ s :: post) (email_validators st)) as [o vs].
    simpl in *. split; [done|]. exact Hk.
Qed.

Lemma set_custom_email_validator_scopes_witness :
  (set_custom_email_validator (fun _ => false) ["cc"; "bogus"; "bcc"] email0).1
    = Raise ValueError /\
  email_validators (set_custom_email_validator (fun _ => false) ["cc"; "bogus"; "bcc"] email0).2
    !! "cc" = Some (fun _ => false).
Proof.
  destruct (proj2 (proj2 set_custom_email_validator_scopes)
              (fun _ => false) ["cc"] "bogus" ["bcc"] email0) as [Ho Hk].
  - vm_compute. intros H. inversion H; subst;
      repeat match goal with H : _ ∈ _ |- _ => inversion H; subst; clear H end.
  - repeat constructor.
  - vm_compute. intros H. inversion H; subst;
      repeat match goal with H : _ ∈ _ |- _ => inversion H; subst; clear H end.
  - split; [exact Ho|]. rewrite Hk. reflexivity.
Defined.

(** C9 (as stated, refuted): for [["bogus"; "cc"]], which does not
    contain ["all"], the call raises at ["bogus"] and the listed scope
    ["cc"] keeps the default validator instead of the new one. *)
Lemma set_custom_email_validator_partial :
  let r := set_custom_email_validator (fun _ => false) ["bogus"; "cc"] email0 in
  r.1 = Raise ValueError /\
  _check_if_valid_email_address r.2 "a@example.com" "cc" = Some true.
Proof. split; vm_compute; reflexivity. Qed.

(* ------------------------------------------------------------------ *)
(** ** C10: return values *)

(** C10: [add_attachment] returns the instance only when it admits a new
    attachment; its two no-op branches (path already present, size 0)
    return [None].  [add_recipient], [add_cc], [add_bcc], [set_body],
    [set_subject] and [send] return the instance whenever they return. *)
Theorem builder_return_values :
  (forall fs path st, Path_of path ∈ attachments st ->
     add_attachment fs path st = (Ok RNone, st)) /\
  (forall fs path st, stat_size fs (Path_of path) = inr 0 ->
     add_attachment fs path st = (Ok RNone, st)) /\
  (forall fs path st st', add_attachment fs path st = (Ok RSelf, st') ->
     (Path_of path ∉ attachments st) /\
     attachments st' = {[Path_of path]} ∪ attachments st) /\
  (forall a st r st', add_recipient a st = (Ok r, st') -> r = RSelf) /\
  (forall a st r st', add_cc a st = (Ok r, st') -> r = RSelf) /\
  (forall a st r st', add_bcc a st = (Ok r, st') -> r = RSelf) /\
  (forall b st r st', set_body b st = (Ok r, st') -> r = RSelf) /\
  (forall s st r st', set_subject s st = (Ok r, st') -> r = RSelf) /\
  (forall fs st r st' calls, send fs st = (Ok r, st', calls) -> r = RSelf).
Proof.
  split; [exact add_attachment_present|].
  split.
  { intros fs path st Hs. unfold add_attachment.
    case_decide; [reflexivity|]. rewrite Hs. reflexivity. }
  split.
  { intros fs path st st' H. unfold add_attachment in H. cbv zeta in H.
    case_decide; [discriminate|].
    destruct (stat_size fs (Path_of path)) as [e|sz]; [discriminate|].
    destruct (Z.eqb sz 0); [discriminate|].
    destruct (negb (is_file fs (Path_of path))); [discriminate|].
    destruct (Z.ltb (available_filesize st - sz) 0); [discriminate|].
    injection H as <-. split; [done | reflexivity]. }
  split.
  { intros a st r st'. unfold add_recipient.
    destruct (_check_if_valid_email_address st a "recipients") as [[]|];
      [case_decide|..]; congruence. }
  split.
  { intros a st r st'. unfold add_cc.
    destruct (_check_if_valid_email_address st a "cc") as [[]|];
      [case_decide|..]; congruence. }
  split.
  { intros a st r st'. unfold add_bcc.
    destruct (_check_if_valid_email_address st a "bcc") as [[]|];
      [case_decide|..]; congruence. }
  split; [intros b st r st' H; injection H as <-; reflexivity|].
  split; [intros s st r st' H; injection H as <-; reflexivity|].
  intros fs st r st' calls. unfold send.
  destruct (size (rec st) <? 1)%nat; [congruence|].
  destruct (read_attachments fs _); [congruence|].
  destruct (email_handler st) as [h|]; [|congruence].
  destruct (sendmail h _ _ _); congruence.
Qed.

Lemma builder_return_values_witness :
  let st1 := snd (add_attachment fs_tmp "/tmp/30kb.txt" email0) in
  add_attachment fs_tmp "/tmp/30kb.txt" st1 = (Ok RNone, st1) /\
  add_attachment fs_tmp "/tmp/empty.txt" st1 = (Ok RNone, st1).
Proof.
  intros st1. split.
  - apply (proj1 builder_return_values). apply (bool_decide_eq_true_1 (_ ∈ _)).
    vm_compute. reflexivity.
  - apply (proj1 (proj2 builder_return_values)). reflexivity.
Defined.

(* ------------------------------------------------------------------ *)
(** ** Further properties: the attachment budget over any call sequence *)

Lemma sum_sizes_perm fs (l1 l2 : list Path) :
  l1 ≡ₚ l2 -> sum_sizes fs l1 = sum_sizes fs l2.
Proof. induction 1; simpl; lia. Qed.

Lemma total_attached_insert fs (p : Path) (X : gset Path) :
  p ∉ X ->
  sum_sizes fs (elements ({[p]} ∪ X)) = attached_size fs p + sum_sizes fs (elements X).
Proof.
  intros Hp. rewrite (sum_sizes_perm fs _ (p :: elements X)); [reflexivity|].
  by apply elements_union_singleton.
Qed.

Lemma is_file_regular fs p :
  is_file fs p = true -> exists n, stat fs p = inr (RegularFile n).
Proof. unfold is_file. destruct (stat fs p) as [|[]]; eauto; discriminate. Qed.

(** [send] changes nothing in the object. *)
Lemma send_state fs st : (send fs st).1.2 = st.
Proof.
  unfold send. destruct (size (rec st) <? 1)%nat; [done|].
  destruct (read_attachments fs _); [done|].
  destruct (email_handler st); [|done]. destruct (sendmail _ _ _ _); done.
Qed.

(** A call either leaves the attachments, the budget and the limit alone,
    or admits one new non-empty regular file within the budget. *)
Lemma run_call_attachments fs c st :
  let st' := run_call fs c st in
  (attachments st' = attachments st /\ available_filesize st' = available_filesize st /\
   FILESIZE_LIMIT st' = FILESIZE_LIMIT st) \/
  (exists p n, (p ∉ attachments st) /\ stat fs p = inr (RegularFile n) /\
     n <> 0 /\ 0 <= available_filesize st - n /\
     attachments st' = {[p]} ∪ attachments st /\
     available_filesize st' = available_filesize st - n /\
     FILESIZE_LIMIT st' = FILESIZE_LIMIT st).
Proof.
  destruct c as [a|a|a|b|s|v scopes|path|h u|]; cbn [run_call].
  - unfold add_recipient.
    destruct (_check_if_valid_email_address st a "recipients") as [[]|];
      [case_decide|..]; left; done.
  - unfold add_cc.
    destruct (_check_if_valid_email_address st a "cc") as [[]|];
      [case_decide|..]; left; done.
  - unfold add_bcc.
    destruct (_check_if_valid_email_address st a "bcc") as [[]|];
      [case_decide|..]; left; done.
  - left; done.
  - left; done.
  - unfold set_custom_email_validator. case_decide; [left; done|].
    destruct (set_scopes v scopes (email_validators st)); left; done.
  - unfold add_attachment. cbv zeta. case_decide as Hin; [left; done|].
    destruct (stat_size fs (Path_of path)) as [e|sz] eqn:Hs; [left; done|].
    destruct (Z.eqb sz 0) eqn:Hz; [left; done|].
    destruct (is_file fs (Path_of path)) eqn:Hf; cbn [negb]; [|left; done].
    destruct (Z.ltb (available_filesize st - sz) 0) eqn:Hl; [left; done|].
    right. destruct (is_file_regular _ _ Hf) as [m Hm].
    unfold stat_size in Hs. rewrite Hm in Hs. injection Hs as ->.
    exists (Path_of path), sz. apply Z.eqb_neq in Hz. apply Z.ltb_ge in Hl.
    done.
  - unfold login. destruct (_check_if_valid_email_address st u "author") as [[]|];
      left; done.
  - left. rewrite send_state. done.
Qed.

(** X1: for files that do not change on disk, after any sequence of calls
    on a fresh [Email] the limit is unchanged and the remaining budget
    plus the sizes of the attached files equals the limit. *)
Theorem budget_accounting fs cs h p limit :
  let st := run_calls fs cs (Email_init h p limit) in
  FILESIZE_LIMIT st = limit /\ available_filesize st + total_attached fs st = limit.
Proof.
  assert (Hgen : forall st, available_filesize st + total_attached fs st = FILESIZE_LIMIT st ->
    let st' := run_calls fs cs st in
    FILESIZE_LIMIT st' = FILESIZE_LIMIT st /\
    available_filesize st' + total_attached fs st' = FILESIZE_LIMIT st').
  { induction cs as [|c cs IH]; intros st Hinv; simpl; [done|].
    destruct (IH (run_call fs c st)) as [H1 H2].
    { destruct (run_call_attachments fs c st)
        as [(Ha & Hv & Hl) | (q & n & Hq & Hreg & Hn & Hb & Ha & Hv & Hl)].
      - unfold total_attached. rewrite Ha, Hv, Hl. done.
      - unfold total_attached. rewrite Ha, Hv, Hl, total_attached_insert by done.
        unfold attached_size, stat_size. rewrite Hreg. cbn [entry_size].
        unfold total_attached in Hinv. lia. }
    split; [|done]. rewrite H1.
    destruct (run_call_attachments fs c st) as [(_ & _ & Hl) | (_ & _ & _ & _ & _ & _ & _ & _ & Hl)];
      exact Hl. }
  cbv zeta. destruct (Hgen (Email_init h p limit)) as [H1 H2].
  { unfold total_attached. cbn [Email_init available_filesize FILESIZE_LIMIT attachments].
    rewrite elements_empty. simpl. lia. }
  cbv zeta in H1, H2. rewrite H1 in H2. split; [exact H1 | exact H2].
Qed.

(** X2: after any sequence of calls on a fresh [Email], every attached
    path is a regular file of non-zero size, and a non-negative limit
    leaves a non-negative budget. *)
Theorem attachments_admitted_only fs cs h p limit :
  let st := run_calls fs cs (Email_init h p limit) in
  (forall q, q ∈ attachments st -> exists n, stat fs q = inr (RegularFile n) /\ n <> 0) /\
  (0 <= limit -> 0 <= available_filesize st).
Proof.
  assert (Hgen : forall st,
    (forall q, q ∈ attachments st -> exists n, stat fs q = inr (RegularFile n) /\ n <> 0) ->
    (0 <= FILESIZE_LIMIT st -> 0 <= available_filesize st) ->
    let st' := run_calls fs cs st in
    (forall q, q ∈ attachments st' -> exists n, stat fs q = inr (RegularFile n) /\ n <> 0) /\
    (0 <= FILESIZE_LIMIT st' -> 0 <= available_filesize st') /\
    FILESIZE_LIMIT st' = FILESIZE_LIMIT st).
  { induction cs as [|c cs IH]; intros st Hfiles Hpos; simpl; [done|].
    destruct (run_call_attachments fs c st)
      as [(Ha & Hv & Hl) | (q & n & Hq & Hreg & Hn & Hb & Ha & Hv & Hl)].
    - destruct (IH (run_call fs c st)) as (H1 & H2 & H3).
      + rewrite Ha. exact Hfiles.
      + rewrite Hv, Hl. exact Hpos.
      + cbv zeta in H1, H2, H3 |- *. split; [exact H1|]. split; [exact H2|].
        rewrite H3. exact Hl.
    - destruct (IH (run_call fs c st)) as (H1 & H2 & H3).
      + rewrite Ha. intros r Hr. apply elem_of_union in Hr as [Hr|Hr].
        * apply elem_of_singleton in Hr as ->. eauto.
        * eauto.
      + rewrite Hv. lia.
      + cbv zeta in H1, H2, H3 |- *. split; [exact H1|]. split; [exact H2|].
        rewrite H3. exact Hl. }
  cbv zeta. destruct (Hgen (Email_init h p limit)) as (H1 & H2 & H3).
  - intros q Hq. simpl in Hq. set_solver.
  - simpl. lia.
  - cbv zeta in H1, H2, H3. split; [exact H1|]. rewrite H3 in H2. exact H2.
Qed.

Lemma entry_at_nonneg fs loc e :
  Forall (fun en => 0 <= entry_size en.2) (entries fs) ->
  entry_at fs loc = Some e -> 0 <= entry_size e.
Proof.
  intros Hall. unfold entry_at.
  destruct (list_find _ (entries fs)) as [[i [k en]]|] eqn:Hf; [|discriminate].
  intros [= <-]. apply list_find_Some in Hf as (Hi & _ & _).
  exact (Forall_lookup_1 _ _ _ _ Hall Hi).
Qed.

Lemma walk_entry fs cur ps loc e :
  walk fs cur ps = inr (loc, e) -> entry_at fs loc = Some e.
Proof.
  revert cur; induction ps as [|c ps IH]; intros cur; cbn [walk].
  - destruct (entry_at fs cur) eqn:E; intros [=]; subst; exact E.
  - case_decide; [discriminate|].
    destruct (NAME_MAX <? String.length c)%nat; [discriminate|].
    set (next := if decide (c = "..") then removelast cur else cur ++ [c]).
    destruct (entry_at fs next) as [[n|n]|] eqn:E.
    + destruct ps; intros [=]; subst; exact E.
    + apply IH.
    + discriminate.
Qed.

Lemma stat_nonneg fs p e :
  Forall (fun en => 0 <= entry_size en.2) (entries fs) ->
  stat fs p = inr e -> 0 <= entry_size e.
Proof.
  intros Hall. unfold stat, resolve. cbv zeta.
  destruct (has_nul (path_str p)); [discriminate|].
  destruct (PATH_MAX <=? String.length (path_str p))%nat; [discriminate|].
  destruct (walk fs _ (parts p)) as [e'|[l en]] eqn:Hw; [discriminate|].
  intros [= <-]. apply walk_entry in Hw. exact (entry_at_nonneg _ _ _ Hall Hw).
Qed.

(** X3: when [stat] reports no negative size, no sequence of calls ever
    increases [available_filesize]. *)
Theorem budget_never_increases fs cs st :
  Forall (fun en => 0 <= entry_size en.2) (entries fs) ->
  available_filesize (run_calls fs cs st) <= available_filesize st.
Proof.
  intros Hall. revert st; induction cs as [|c cs IH]; intros st; simpl; [lia|].
  specialize (IH (run_call fs c st)).
  destruct (run_call_attachments fs c st)
    as [(_ & Hv & _) | (q & n & _ & Hreg & _ & _ & _ & Hv & _)]; [lia|].
  pose proof (stat_nonneg fs q _ Hall Hreg). simpl in *. lia.
Qed.

Lemma budget_never_increases_witness :
  available_filesize
    (run_calls fs_tmp [CAttach "/tmp/30kb.txt"; CAttach "/tmp/70kb.txt"; CAttach "/tmp/d"] email0)
  <= available_filesize email0.
Proof.
  apply budget_never_increases. repeat constructor; simpl; lia.
Defined.

(* ------------------------------------------------------------------ *)
(** ** Further properties: addresses, validators and the handler *)

(** [add_attachment] either leaves the object alone or only changes its
    attachments and budget. *)
Lemma add_attachment_cases_frame fs path st :
  (add_attachment fs path st).2 = st \/
  exists a n, (add_attachment fs path st).2 = set_attachments st a n.
Proof.
  unfold add_attachment. cbv zeta. case_decide; [by left|].
  destruct (stat_size fs (Path_of path)) as [e|sz]; [by left|].
  destruct (Z.eqb sz 0); [by left|].
  destruct (negb (is_file fs (Path_of path))); [by left|].
  destruct (Z.ltb (available_filesize st - sz) 0); [by left|].
  right. eauto.
Qed.

(** Calls other than the three address calls leave the sets alone. *)
Lemma run_call_disjoint fs c st :
  disjoint_scopes st -> disjoint_scopes (run_call fs c st).
Proof.
  intros H. destruct c as [a|a|a|b|s|v scopes|path|h u|]; cbn [run_call].
  - by apply add_recipient_disjoint.
  - by apply add_cc_disjoint.
  - by apply add_bcc_disjoint.
  - exact H.
  - exact H.
  - unfold set_custom_email_validator. case_decide; [exact H|].
    destruct (set_scopes v scopes (email_validators st)); exact H.
  - destruct (add_attachment_cases_frame fs path st) as [-> | (x & n & ->)]; exact H.
  - unfold login. destruct (_check_if_valid_email_address st u "author") as [[]|];
      exact H.
  - by rewrite send_state.
Qed.

(** X4: the sets [rec], [cc] and [bcc] of a fresh [Email] stay pairwise
    disjoint under any sequence of calls of its methods, not only the
    three address calls. *)
Theorem all_calls_keep_scopes_disjoint fs cs h p limit :
  disjoint_scopes (run_calls fs cs (Email_init h p limit)).
Proof.
  generalize (Email_init_disjoint h p limit).
  generalize (Email_init h p limit) as st.
  induction cs as [|c cs IH]; intros st H; simpl; [exact H|].
  apply IH. by apply run_call_disjoint.
Qed.

Lemma set_scopes_keeps v scopes vs k :
  is_Some (vs !! k) -> is_Some ((set_scopes v scopes vs).2 !! k).
Proof.
  revert vs; induction scopes as [|s ss IH]; intros vs H; cbn [set_scopes]; [exact H|].
  case_decide; [exact H|]. apply IH. rewrite lookup_insert. case_decide; [done|exact H].
Qed.

Lemma run_call_validator_keys fs c st k :
  is_Some (email_validators st !! k) -> is_Some (email_validators (run_call fs c st) !! k).
Proof.
  intros H. destruct c as [a|a|a|b|s|v scopes|path|h u|]; cbn [run_call].
  - unfold add_recipient.
    destruct (_check_if_valid_email_address st a "recipients") as [[]|];
      [case_decide|..]; exact H.
  - unfold add_cc.
    destruct (_check_if_valid_email_address st a "cc") as [[]|];
      [case_decide|..]; exact H.
  - unfold add_bcc.
    destruct (_check_if_valid_email_address st a "bcc") as [[]|];
      [case_decide|..]; exact H.
  - exact H.
  - exact H.
  - unfold set_custom_email_validator. case_decide.
    + cbn [email_validators set_validators snd]. rewrite !lookup_insert.
      repeat case_decide; done.
    + pose proof (set_scopes_keeps v scopes _ k H) as Hs.
      destruct (set_scopes v scopes (email_validators st)); exact Hs.
  - destruct (add_attachment_cases_frame fs path st) as [-> | (x & n & ->)]; exact H.
  - unfold login. destruct (_check_if_valid_email_address st u "author") as [[]|];
      exact H.
  - by rewrite send_state.
Qed.

(** X5: the four validator keys of a fresh [Email] are never lost, so on
    an object reached by any sequence of calls, [add_recipient], [add_cc],
    [add_bcc] and [login] never raise [KeyError] from the validator
    lookup. *)
Theorem validator_lookup_never_fails fs cs h p limit a hh u :
  let st := run_calls fs cs (Email_init h p limit) in
  (add_recipient a st).1 <> Raise KeyError /\ (add_cc a st).1 <> Raise KeyError /\
  (add_bcc a st).1 <> Raise KeyError /\ (login hh u st).1 <> Raise KeyError.
Proof.
  cbv zeta.
  assert (Hinv : forall st0 k, is_Some (email_validators st0 !! k) ->
            is_Some (email_validators (run_calls fs cs st0) !! k)).
  { induction cs as [|c cs IH]; intros st0 k H; simpl; [exact H|].
    apply IH. by apply run_call_validator_keys. }
  assert (Hk : forall k, k ∈ validator_keys ->
            is_Some (email_validators (run_calls fs cs (Email_init h p limit)) !! k)).
  { intros k Hk. apply Hinv. unfold validator_keys in Hk.
    repeat (apply elem_of_cons in Hk as [-> | Hk]; [eexists; reflexivity|]).
    by apply not_elem_of_nil in Hk. }
  set (st := run_calls fs cs (Email_init h p limit)) in *.
  unfold add_recipient, add_cc, add_bcc, login, _check_if_valid_email_address.
  destruct (Hk "recipients") as [f1 ->]; [set_solver|].
  destruct (Hk "cc") as [f2 ->]; [set_solver|].
  destruct (Hk "bcc") as [f3 ->]; [set_solver|].
  destruct (Hk "author") as [f4 ->]; [set_solver|]. cbn [fmap option_fmap option_map].
  repeat split;
    [destruct (f1 a) | destruct (f2 a) | destruct (f3 a) | destruct (f4 u)];
    try case_decide; discriminate.
Qed.

(* ------------------------------------------------------------------ *)
(** ** Further properties: send *)







Lemma split_on_length c s : List.length (split_on c s) = S (count_char c s).
Proof.
  induction s as [|x s IH]; [reflexivity|]. cbn [split_on count_char].
  destruct (split_on c s) as [|w ws]; [discriminate|].
  destruct (Ascii.eqb x c); simpl in *; lia.
Qed.

Lemma split_on_nosep c w :
  c ∉ list_ascii_of_string w -> split_on c w = [w].
Proof.
  induction w as [|x w IH]; intros H; [reflexivity|]. cbn [split_on].
  cbn [list_ascii_of_string] in H. rewrite IH by set_solver.
  destruct (Ascii.eqb x c) eqn:E; [|reflexivity].
  apply Ascii.eqb_eq in E as ->. set_solver.
Qed.

Lemma split_on_app_sep c w s :
  c ∉ list_ascii_of_string w ->
  split_on c (w ++ String c s) = w :: split_on c s.
Proof.
  induction w as [|x w IH]; intros H.
  - simpl. destruct (split_on c s) eqn:E.
    { pose proof (split_on_length c s) as L. rewrite E in L. discriminate. }
    rewrite Ascii.eqb_refl. reflexivity.
  - cbn [list_ascii_of_string] in H. simpl. rewrite IH by set_solver.
    destruct (Ascii.eqb x c) eqn:E; [|reflexivity].
    apply Ascii.eqb_eq in E as ->. set_solver.
Qed.

(** Splitting a comma-joined list of comma-free fields gives them back. *)
Lemma split_on_concat c l :
  l <> [] -> Forall (fun w => c ∉ list_ascii_of_string w) l ->
  split_on c (String.concat (String c "") l) = l.
Proof.
  induction l as [|w [|w' l] IH]; intros Hne Hall; [done| |].
  - apply Forall_cons in Hall as [Hw _]. cbn [String.concat]. by apply split_on_nosep.
  - apply Forall_cons in Hall as [Hw Hl].
    change (String.concat (String c "") (w :: w' :: l))
      with (w ++ String c (String.concat (String c "") (w' :: l)))%string.
    rewrite split_on_app_sep by exact Hw.
    rewrite IH; [reflexivity|discriminate|exact Hl].
Qed.

(** X8: on any object reached from a fresh [Email] whose [cc] addresses
    contain no comma, the comma-separated fields of the Cc header that
    [send] composes are exactly the [cc] addresses (when there are any),
    and no non-empty [bcc] address is one of them. *)
Theorem bcc_not_in_cc_header fs cs h p limit a :
  let st := run_calls fs cs (Email_init h p limit) in
  (forall x, x ∈ cc st -> ","%char ∉ list_ascii_of_string x) ->
  (cc st <> ∅ -> split_on "," (msg_cc (compose st)) = elements (cc st)) /\
  (a ∈ bcc st -> a <> ""%string -> a ∉ split_on "," (msg_cc (compose st))).
Proof.
  cbv zeta. set (st := run_calls fs cs (Email_init h p limit)). intros Hnc.
  assert (Hsplit : cc st <> ∅ -> split_on "," (msg_cc (compose st)) = elements (cc st)).
  { intros Hne. unfold compose. cbn [msg_cc]. apply split_on_concat.
    - intros He. apply Hne. apply leibniz_equiv. by apply elements_empty_inv.
    - apply Forall_forall. intros x Hx. apply Hnc. by apply elem_of_elements. }
  split; [exact Hsplit|]. intros Hb Hnon Hin.
  destruct (all_calls_keep_scopes_disjoint fs cs h p limit) as (_ & _ & Hd).
  destruct (decide (cc st = ∅)) as [He|Hne].
  - unfold compose in Hin. cbn [msg_cc] in Hin. rewrite He, elements_empty in Hin.
    cbn in Hin. apply list_elem_of_singleton in Hin. done.
  - rewrite (Hsplit Hne), elem_of_elements in Hin. set_solver.
Qed.

Lemma bcc_not_in_cc_header_witness :
  let st := run_calls fs_tmp [CBcc "b@example.com"; CCc "b@example.com"; CCc "c@example.com"]
              email0 in
  "b@example.com" ∉ split_on "," (msg_cc (compose st)).
Proof.
  intros st.
  assert (Hnc : forall x, x ∈ cc st -> ","%char ∉ list_ascii_of_string x).
  { intros x Hx. assert (E : elements (cc st) = ["c@example.com"]) by reflexivity.
    apply elem_of_elements in Hx. rewrite E in Hx. apply list_elem_of_singleton in Hx as ->.
    vm_compute. intros Hc. inversion Hc; subst;
      repeat match goal with H : _ ∈ _ |- _ => inversion H; subst; clear H end. }
  apply (proj2 (bcc_not_in_cc_header fs_tmp _ "smtp.google.com" 587 60 "b@example.com" Hnc)).
  - apply (bool_decide_eq_true_1 (_ ∈ _)). vm_compute. reflexivity.
  - discriminate.
Defined.

(** With a cc validator that accepts a comma, the header does name a
    [bcc] address: [add_cc("x@example.com,b@example.com")] after
    [add_bcc("b@example.com")]. *)
Lemma cc_header_comma_names_bcc :
  let st0 := snd (set_custom_email_validator (fun _ => true) ["cc"] email0) in
  let st := snd (add_cc "x@example.com,b@example.com" (snd (add_bcc "b@example.com" st0))) in
  "b@example.com" ∈ bcc st /\
  msg_cc (compose st) = "x@example.com,b@example.com"%string /\
  "b@example.com" ∈ split_on "," (msg_cc (compose st)).
Proof.
  intros st0 st. split; [apply (bool_decide_eq_true_1 (_ ∈ _)); vm_compute; reflexivity|].
  split; [vm_compute; reflexivity|].
  apply (bool_decide_eq_true_1 (_ ∈ _)). vm_compute. reflexivity.
Qed.


(* ------------------------------------------------------------------ *)
(** ** Further properties: the default validator *)

Lemma split_on_single c s w : split_on c s = [w] -> s = w.
Proof.
  revert w; induction s as [|x s IH]; intros w H; cbn [split_on] in H.
  - by injection H as <-.
  - destruct (split_on c s) as [|v vs] eqn:E; [discriminate|].
    destruct (Ascii.eqb x c); [discriminate|].
    injection H as <- ->. by rewrite (IH v).
Qed.

Lemma split_on_pair c s l d : split_on c s = [l; d] -> s = (l ++ String c d)%string.
Proof.
  revert l; induction s as [|x s IH]; intros l H; cbn [split_on] in H; [discriminate|].
  destruct (split_on c s) as [|v vs] eqn:E; [discriminate|].
  destruct (Ascii.eqb x c) eqn:Ex.
  - apply Ascii.eqb_eq in Ex as ->. injection H as <- -> ->.
    simpl. by rewrite (split_on_single c s d E).
  - injection H as <- ->. simpl. by rewrite (IH v).
Qed.

Lemma split_on_chars c s x :
  x ∈ list_ascii_of_string s ->
  x = c \/ exists w, w ∈ split_on c s /\ x ∈ list_ascii_of_string w.
Proof.
  induction s as [|y s IH]; cbn [list_ascii_of_string split_on]; intros H.
  - by apply not_elem_of_nil in H.
  - destruct (split_on c s) as [|w ws] eqn:E.
    { pose proof (split_on_length c s) as L. rewrite E in L. discriminate. }
    apply elem_of_cons in H as [->|H].
    + destruct (Ascii.eqb y c) eqn:Ex; [left; by apply Ascii.eqb_eq|].
      right. exists (String y w). split; [apply elem_of_cons; by left|].
      apply elem_of_cons; by left.
    + destruct (IH H) as [->|(v & Hv & Hx)]; [by left|]. right.
      destruct (Ascii.eqb y c).
      * exists v. split; [by apply elem_of_cons; right|exact Hx].
      * apply elem_of_cons in Hv as [->|Hv].
        -- exists (String y w). split; [apply elem_of_cons; by left|].
           cbn [list_ascii_of_string]. by apply elem_of_cons; right.
        -- exists v. split; [by apply elem_of_cons; right|exact Hx].
Qed.

Lemma list_ascii_of_string_app s1 s2 :
  list_ascii_of_string (s1 ++ s2) = list_ascii_of_string s1 ++ list_ascii_of_string s2.
Proof. induction s1 as [|x s IH]; simpl; [done|]. by rewrite IH. Qed.

Lemma count_char_app c s1 s2 : count_char c (s1 ++ s2) = (count_char c s1 + count_char c s2)%nat.
Proof. induction s1 as [|x s IH]; simpl; [done|]. rewrite IH. lia. Qed.

Lemma domain_char_local x : is_domain_char x = true -> is_local_char x = true.
Proof. unfold is_local_char, is_domain_char. intros ->. reflexivity. Qed.

Lemma word_char_local x : is_word_char x = true -> is_local_char x = true.
Proof. unfold is_local_char. intros ->. reflexivity. Qed.

Lemma plus_of_chars cls w x :
  plus_of cls w = true -> x ∈ list_ascii_of_string w -> cls x = true.
Proof.
  unfold plus_of. intros H Hx. apply andb_true_iff in H as [_ H].
  rewrite forallb_forall in H. apply H. by apply list_elem_of_In.
Qed.

(** X10: an (ASCII) address accepted by the default validator is
    [local ++ "@" ++ domain] with exactly one ['@'], a non-empty local
    part, at least one ['.'] in the domain, and only letters, digits and
    the characters [- _ + . @]. *)
Theorem default_validator_shape address :
  _default_email_validator address = true ->
  exists local domain,
    address = (local ++ String "@" domain)%string /\
    count_char "@" address = 1%nat /\ local <> ""%string /\
    (1 <= count_char "." domain)%nat /\
    Forall (fun x => is_local_char x = true \/ x = "@"%char) (list_ascii_of_string address).
Proof.
  unfold _default_email_validator. intros H.
  destruct (split_on "@" address) as [|l [|d [|? ?]]] eqn:E; try discriminate.
  apply andb_true_iff in H as [Hl Hd].
  destruct (split_on "." d) as [|first [|r rs]] eqn:Ed; try discriminate.
  apply andb_true_iff in Hd as [Hfirst Hrest].
  exists l, d. pose proof (split_on_pair _ _ _ _ E) as Ha.
  split; [exact Ha|]. split.
  { pose proof (split_on_length "@" address) as L. rewrite E in L. simpl in L. lia. }
  split.
  { intros ->. unfold plus_of in Hl. simpl in Hl. discriminate. }
  split.
  { pose proof (split_on_length "." d) as L. rewrite Ed in L. simpl in L. lia. }
  rewrite Ha, list_ascii_of_string_app. apply Forall_app. split.
  - apply Forall_forall. intros x Hx. left.
    apply (plus_of_chars _ l); [exact Hl|]. exact Hx.
  - cbn [list_ascii_of_string]. constructor; [by right|].
    apply Forall_forall. intros x Hx. left.
    destruct (split_on_chars "." d x Hx) as [->|(w & Hw & Hxw)]; [reflexivity|].
    rewrite Ed in Hw. apply elem_of_cons in Hw as [->|Hw].
    + apply domain_char_local. exact (plus_of_chars _ _ _ Hfirst Hxw).
    + apply word_char_local. rewrite forallb_forall in Hrest.
      apply list_elem_of_In in Hw.
      exact (plus_of_chars _ _ _ (Hrest w Hw) Hxw).
Qed.

Lemma default_validator_shape_witness :
  exists local domain,
    "test@example.edu.ua"%string = (local ++ String "@" domain)%string /\
    count_char "@" "test@example.edu.ua" = 1%nat /\ local <> ""%string /\
    (1 <= count_char "." domain)%nat /\
    Forall (fun x => is_local_char x = true \/ x = "@"%char)
      (list_ascii_of_string "test@example.edu.ua").
Proof. apply default_validator_shape. reflexivity. Defined.

(* ------------------------------------------------------------------ *)
(** ** Further properties: the address calls *)

(** X11: when [add_recipient], [add_cc] or [add_bcc] returns normally,
    the scope's validator accepted the address, and afterwards the
    address is held by one of [rec], [cc] and [bcc] (newly inserted into
    the target set, or already held by another one). *)
Theorem add_address_lands_somewhere a st r st' :
  (add_recipient a st = (Ok r, st') ->
     _check_if_valid_email_address st a "recipients" = Some true /\
     a ∈ rec st' ∪ cc st' ∪ bcc st') /\
  (add_cc a st = (Ok r, st') ->
     _check_if_valid_email_address st a "cc" = Some true /\
     a ∈ rec st' ∪ cc st' ∪ bcc st') /\
  (add_bcc a st = (Ok r, st') ->
     _check_if_valid_email_address st a "bcc" = Some true /\
     a ∈ rec st' ∪ cc st' ∪ bcc st').
Proof.
  unfold add_recipient, add_cc, add_bcc.
  split; [|split]; intros Hcall.
  - destruct (_check_if_valid_email_address st a "recipients") as [[]|];
      try discriminate. split; [reflexivity|].
    case_decide as Hd; injection Hcall as Hr Hst; subst;
      cbn [rec cc bcc set_rec set_cc_set set_bcc_set]; [set_solver|].
    apply dec_stable. intros Hn. apply Hd. set_solver.
  - destruct (_check_if_valid_email_address st a "cc") as [[]|];
      try discriminate. split; [reflexivity|].
    case_decide as Hd; injection Hcall as Hr Hst; subst;
      cbn [rec cc bcc set_rec set_cc_set set_bcc_set]; [set_solver|].
    apply dec_stable. intros Hn. apply Hd. set_solver.
  - destruct (_check_if_valid_email_address st a "bcc") as [[]|];
      try discriminate. split; [reflexivity|].
    case_decide as Hd; injection Hcall as Hr Hst; subst;
      cbn [rec cc bcc set_rec set_cc_set set_bcc_set]; [set_solver|].
    apply dec_stable. intros Hn. apply Hd. set_solver.
Qed.

Lemma add_address_lands_somewhere_witness :
  let st1 := snd (add_bcc "x@example.com" email0) in
  "x@example.com" ∈ rec (snd (add_recipient "x@example.com" st1)) ∪
                   cc (snd (add_recipient "x@example.com" st1)) ∪
                   bcc (snd (add_recipient "x@example.com" st1)).
Proof.
  intros st1.
  exact (proj2 (proj1 (add_address_lands_somewhere "x@example.com" st1 RSelf
                         (snd (add_recipient "x@example.com" st1))) eq_refl)).
Defined.
